(** * split_bam_by_tag: splitting an alignment stream by the value of a tag

    A shallow embedding of [src/misc/split_bam_by_tag.py].  The script reads
    the entries of a BAM file one after the other, looks at one tag of each
    entry and writes the entry to one of two output files, keeping three
    counters in the list [n]; at the end it closes the input file and prints
    four summary lines.

    The pysam layer is outside the script.  What the script uses of it is
    modelled abstractly: an entry is a name with its auxiliary fields, an
    output file is the list of the entries written to it so far, and the
    iterator returned by [fetch(until_eof=True)] is the finite list of the
    entries of the input.  Tag values are strings (BAM type [Z]), which is
    what the script compares with the command-line string [tag_value]. *)

From Stdlib Require Import ZArith.
From stdpp Require Import base decidable option list numbers strings pretty.

Local Open Scope Z_scope.
Local Open Scope nat_scope.

(** ** Exceptions and the state of a run *)

(** The exceptions the statements of the script can raise: the [assert] of
    [hamming], [get_tag] on an absent tag, an index out of range in [n[i]],
    and a write to a file that was opened for reading.  Assertions are taken
    as enabled (no [-O]). *)
Inductive exn := AssertionError | KeyError | IndexError | IOError.

#[global] Instance exn_eq_dec : EqDecision exn.
Proof. solve_decision. Defined.

(** An alignment entry, as far as the script looks at it: [aux] holds the
    optional fields, tag key first. *)
Record AlignedSegment := {
  query_name : string;
  aux : list (string * string)
}.

#[global] Instance AlignedSegment_eq_dec : EqDecision AlignedSegment.
Proof. solve_decision. Defined.

(** The three files the script opens (lines 61-63). *)
Inductive handle := infile | outfile_1 | outfile_2.

#[global] Instance handle_eq_dec : EqDecision handle.
Proof. solve_decision. Defined.

(** The parsed command line ([args]); the three path arguments only name the
    files and are left out. *)
Record Args := {
  tag_id : string;
  tag_value : string;
  max_edit_dist : Z;
  discard_missing_tags : bool
}.

(** What a run changes: the entries written to each output file, the counter
    list [n], the lines printed, and the files on which [close] was called. *)
Record state := {
  out_1 : list AlignedSegment;
  out_2 : list AlignedSegment;
  n : list nat;
  stdout : list string;
  closed : list handle
}.

(** Lines 61-65: the files are open, nothing is written, [n = [0, 0, 0]]. *)
Definition init : state :=
  {| out_1 := []; out_2 := []; n := [0; 0; 0]; stdout := []; closed := [] |}.

(** ** A state and exception monad for the script's statements *)

Definition M (A : Type) : Type := state → (exn + A) * state.

#[global] Instance M_ret : MRet M := λ A x st, (inr x, st).

#[global] Instance M_bind : MBind M := λ A B f m st,
  match m st with
  | (inl e, st') => (inl e, st')
  | (inr x, st') => f x st'
  end.

Definition raise {A} (e : exn) : M A := λ st, (inl e, st).

Definition lift {A} (r : exn + A) : M A := λ st, (r, st).

Definition modify (f : state → state) : M unit := λ st, (inr (), f st).

(** The state after [entry] is appended to the first, or to the second,
    output file, and after counter [i] is replaced by [c]. *)
Definition put_1 (entry : AlignedSegment) (st : state) : state :=
  {| out_1 := out_1 st ++ [entry]; out_2 := out_2 st; n := n st;
     stdout := stdout st; closed := closed st |}.

Definition put_2 (entry : AlignedSegment) (st : state) : state :=
  {| out_1 := out_1 st; out_2 := out_2 st ++ [entry]; n := n st;
     stdout := stdout st; closed := closed st |}.

Definition set_n (i c : nat) (st : state) : state :=
  {| out_1 := out_1 st; out_2 := out_2 st; n := <[i := c]> (n st);
     stdout := stdout st; closed := closed st |}.

(** [h.write(entry)] *)
Definition write (h : handle) (entry : AlignedSegment) : M unit :=
  match h with
  | outfile_1 => modify (put_1 entry)
  | outfile_2 => modify (put_2 entry)
  | infile => raise IOError
  end.

(** [n[i]]; Python raises [IndexError] when [i] is out of range. *)
Definition n_at (i : nat) : M nat := λ st,
  match n st !! i with
  | Some c => (inr c, st)
  | None => (inl IndexError, st)
  end.

(** [n[i] += 1] *)
Definition incr (i : nat) : M unit :=
  c ← n_at i ;
  modify (set_n i (c + 1)).

Definition add_line (line : string) (st : state) : state :=
  {| out_1 := out_1 st; out_2 := out_2 st; n := n st;
     stdout := stdout st ++ [line]; closed := closed st |}.

Definition add_closed (h : handle) (st : state) : state :=
  {| out_1 := out_1 st; out_2 := out_2 st; n := n st;
     stdout := stdout st; closed := closed st ++ [h] |}.

(** [print(line)] *)
Definition print (line : string) : M unit := modify (add_line line).

(** [h.close()] *)
Definition close (h : handle) : M unit := modify (add_closed h).

(** [sum(n)] *)
Definition sum_n : M nat := λ st, (inr (sum_list (n st)), st).

(** [for entry in entries: body(entry)]: the loop stops at the first
    exception. *)
Fixpoint for_each {A} (body : A → M unit) (entries : list A) : M unit :=
  match entries with
  | [] => mret ()
  | entry :: rest => body entry ;; for_each body rest
  end.

(** ** The functions of the script *)

Section hamming.
Context {A : Type} `{EqDecision A}.

(** [c1 != c2] for a pair of [zip(s1, s2)], as the number [sum] adds. *)
Definition mismatch (p : A * A) : nat := if decide (p.1 ≠ p.2) then 1 else 0.

(** Lines 42-45.
<<
  assert len(s1) == len(s2)
  return sum(c1 != c2 for c1, c2 in zip(s1, s2))
>> *)
Definition hamming (s1 s2 : list A) : exn + nat :=
  if decide (length s1 = length s2)
  then inr (sum_list (mismatch <$> zip s1 s2))
  else inl AssertionError.
End hamming.

(** A Python string as the sequence of its characters. *)
Definition chars (s : string) : list Ascii.ascii := String.list_ascii_of_string s.

(** The lookup behind both [has_tag] and [get_tag]: the first auxiliary field
    with the given key. *)
Fixpoint aux_get (fields : list (string * string)) (tag : string) : option string :=
  match fields with
  | [] => None
  | (key, value) :: rest => if decide (key = tag) then Some value else aux_get rest tag
  end.

Definition has_tag (entry : AlignedSegment) (tag : string) : bool :=
  bool_decide (is_Some (aux_get (aux entry) tag)).

Definition get_tag (entry : AlignedSegment) (tag : string) : M string :=
  match aux_get (aux entry) tag with
  | Some value => mret value
  | None => raise KeyError
  end.

(** The body of the loop, lines 68-92; [continue] ends the body. *)
Definition process_entry (args : Args) (entry : AlignedSegment) : M unit :=
  if negb (has_tag entry (tag_id args)) then
    if discard_missing_tags args then
      incr 0
    else
      write outfile_2 entry ;;
      incr 1
  else
    value_of_tag ← get_tag entry (tag_id args) ;
    if (0 <? max_edit_dist args)%Z then
      edit_dist ← lift (hamming (chars (tag_value args)) (chars value_of_tag)) ;
      if (Z.of_nat edit_dist <=? max_edit_dist args)%Z then
        write outfile_1 entry ;;
        incr 2
      else
        write outfile_2 entry ;;
        incr 1
    else
      if bool_decide (value_of_tag = tag_value args) then
        write outfile_1 entry ;;
        incr 2
      else
        write outfile_2 entry ;;
        incr 1.

(** The four [print] calls, lines 96-99, with [%d] and [%s] filled in. *)
Definition line_processed (total : nat) : string :=
  "Processed " +:+ pretty total +:+ " lines".

Definition line_without_tag (args : Args) (c : nat) : string :=
  "Found " +:+ pretty c +:+ " lines without the tag " +:+ tag_id args.

Definition line_not_equal (args : Args) (c : nat) : string :=
  "Found " +:+ pretty c +:+ " lines where " +:+ tag_id args +:+ " != " +:+ tag_value args.

Definition line_equal (args : Args) (c : nat) : string :=
  "Found " +:+ pretty c +:+ " lines where " +:+ tag_id args +:+ " == " +:+ tag_value args
    +:+ " with an edit distance of maximum " +:+ pretty (max_edit_dist args).

Definition summary (args : Args) : M unit :=
  total ← sum_n ;
  print (line_processed total) ;;
  c0 ← n_at 0 ;
  print (line_without_tag args c0) ;;
  c1 ← n_at 1 ;
  print (line_not_equal args c1) ;;
  c2 ← n_at 2 ;
  print (line_equal args c2).

(** The whole script from line 65 on, over the entries of the input file. *)
Definition main (args : Args) (entries : list AlignedSegment) : M unit :=
  for_each (process_entry args) entries ;;
  close infile ;;
  summary args.

(** The exit status of the interpreter: an uncaught exception gives 1. *)
Definition exit_status {A} (r : exn + A) : Z :=
  match r with
  | inl _ => 1%Z
  | inr _ => 0%Z
  end.

(** A run: the script from the state of lines 61-65; the result is the
    exception that ended it, if any, and the state it left. *)
Definition run (args : Args) (entries : list AlignedSegment) : (exn + unit) * state :=
  main args entries init.

(** ** Notions of the specification *)

(** The Hamming distance as the specification words it: the number of index
    positions, below the length of the first sequence, at which the two
    sequences differ. *)
Definition differing_positions {A} `{EqDecision A} (s1 s2 : list A) : nat :=
  length (filter (λ i, s1 !! i ≠ s2 !! i) (seq 0 (length s1))).

(** The three outcomes of a record in the specification. *)
Inductive Outcome := Discard | NoMatch | Match.

#[global] Instance Outcome_eq_dec : EqDecision Outcome.
Proof. solve_decision. Defined.

(** The outcome of one record, after the contract of [classify] in the
    specification; [None] is the fatal violation of the precondition that a
    tag value is as long as the target when the Hamming distance is taken.
    The contract asks for [maxEditDist ≥ 0] and gives the cases [= 0] and
    [> 0]; below [0] this definition takes the case of exact equality. *)
Definition classify (record : AlignedSegment) (tagKey targetValue : string)
    (maxEditDist : Z) (discardMissing : bool) : option Outcome :=
  match aux_get (aux record) tagKey with
  | None => if discardMissing then Some Discard else Some NoMatch
  | Some v =>
      if decide (0 < maxEditDist)%Z then
        if decide (String.length v = String.length targetValue) then
          if decide (Z.of_nat (differing_positions (chars v) (chars targetValue))
                     ≤ maxEditDist)%Z
          then Some Match else Some NoMatch
        else None
      else
        if decide (v = targetValue) then Some Match else Some NoMatch
  end.

Definition outcome (args : Args) (entry : AlignedSegment) : option Outcome :=
  classify entry (tag_id args) (tag_value args) (max_edit_dist args)
    (discard_missing_tags args).

(** An entry on which the loop body raises [AssertionError]: it carries the
    tag, the Hamming distance is asked for, and the lengths differ. *)
Definition violates (args : Args) (entry : AlignedSegment) : bool :=
  match aux_get (aux entry) (tag_id args) with
  | Some value =>
      bool_decide (0 < max_edit_dist args)%Z
      && bool_decide (String.length value ≠ String.length (tag_value args))
  | None => false
  end.

(** The entries the loop gets through: those before the first one without an
    outcome. *)
Fixpoint processed (args : Args) (entries : list AlignedSegment) : list AlignedSegment :=
  match entries with
  | [] => []
  | entry :: rest =>
      match outcome args entry with
      | Some _ => entry :: processed args rest
      | None => []
      end
  end.

(** The entries with a given outcome, in their order. *)
Definition with_outcome (args : Args) (o : Outcome) (entries : list AlignedSegment)
    : list AlignedSegment :=
  filter (λ entry, outcome args entry = Some o) entries.

(** The entries without the tag. *)
Definition missing_tag (args : Args) (entries : list AlignedSegment) : list AlignedSegment :=
  filter (λ entry, has_tag entry (tag_id args) = false) entries.

(** ** The states a run goes through *)

(** Counter [i] goes up by one. *)
Definition bump (i : nat) (st : state) : state := set_n i (n st !!! i + 1) st.

(** The three ways an entry is disposed of. *)
Definition deliver (o : Outcome) (entry : AlignedSegment) (st : state) : state :=
  match o with
  | Discard => bump 0 st
  | NoMatch => bump 1 (put_2 entry st)
  | Match => bump 2 (put_1 entry st)
  end.

(** The state the loop leaves when it has got through [done] from [st]. *)
Definition after_loop (args : Args) (done : list AlignedSegment) (st : state) : state :=
  {| out_1 := out_1 st ++ with_outcome args Match done;
     out_2 := out_2 st ++ with_outcome args NoMatch done;
     n := [n st !!! 0 + length (with_outcome args Discard done);
           n st !!! 1 + length (with_outcome args NoMatch done);
           n st !!! 2 + length (with_outcome args Match done)];
     stdout := stdout st;
     closed := closed st |}.

(** The state in which the loop leaves off, starting from [init]. *)
Definition loop_state (args : Args) (entries : list AlignedSegment) : state :=
  after_loop args (processed args entries) init.

(** The state at the end of a run that gets through all of [entries]. *)
Definition final_state (args : Args) (entries : list AlignedSegment) : state :=
  let d := length (with_outcome args Discard entries) in
  let x := length (with_outcome args NoMatch entries) in
  let m := length (with_outcome args Match entries) in
  {| out_1 := with_outcome args Match entries;
     out_2 := with_outcome args NoMatch entries;
     n := [d; x; m];
     stdout := [line_processed (d + x + m); line_without_tag args d;
                line_not_equal args x; line_equal args m];
     closed := [infile] |}.

(** The command line with [max_edit_dist] put to 0. *)
Definition exact_mode (args : Args) : Args :=
  {| tag_id := tag_id args; tag_value := tag_value args; max_edit_dist := 0;
     discard_missing_tags := discard_missing_tags args |}.

(** The command line with [discard_missing_tags] put to [b], and with
    [max_edit_dist] put to [k]. *)
Definition set_discard (b : bool) (args : Args) : Args :=
  {| tag_id := tag_id args; tag_value := tag_value args;
     max_edit_dist := max_edit_dist args; discard_missing_tags := b |}.

Definition set_max_edit_dist (k : Z) (args : Args) : Args :=
  {| tag_id := tag_id args; tag_value := tag_value args; max_edit_dist := k;
     discard_missing_tags := discard_missing_tags args |}.

(** Every entry that carries the tag carries a value as long as [tag_value]:
    the condition under which [hamming] is never called on different
    lengths. *)
Definition same_length (args : Args) (entry : AlignedSegment) : bool :=
  match aux_get (aux entry) (tag_id args) with
  | Some value => bool_decide (String.length value = String.length (tag_value args))
  | None => true
  end.

(** The two ways the loop body's tests on a tag value come out without
    exception: the first sends the entry to the first output file, the second
    to the second. *)
Definition matches (args : Args) (value : string) : Prop :=
  if decide (0 < max_edit_dist args)%Z
  then String.length value = String.length (tag_value args) ∧
       (Z.of_nat (differing_positions (chars value) (chars (tag_value args)))
        ≤ max_edit_dist args)%Z
  else value = tag_value args.

Definition mismatches (args : Args) (value : string) : Prop :=
  if decide (0 < max_edit_dist args)%Z
  then String.length value = String.length (tag_value args) ∧
       (max_edit_dist args
        < Z.of_nat (differing_positions (chars value) (chars (tag_value args))))%Z
  else value ≠ tag_value args.

(** ** Sample command lines and inputs *)

Definition args_exact : Args :=
  {| tag_id := "RG"; tag_value := "A"; max_edit_dist := 0; discard_missing_tags := false |}.

Definition args_discard : Args :=
  {| tag_id := "RG"; tag_value := "A"; max_edit_dist := 0; discard_missing_tags := true |}.

Definition args_hamming : Args :=
  {| tag_id := "XC"; tag_value := "AC"; max_edit_dist := 1; discard_missing_tags := false |}.

Definition args_negative : Args :=
  {| tag_id := "XC"; tag_value := "AC"; max_edit_dist := -2; discard_missing_tags := false |}.

Definition read (name : string) (fields : list (string * string)) : AlignedSegment :=
  {| query_name := name; aux := fields |}.

Definition untagged : AlignedSegment := read "r0" [("NH", "1")].

(** The first example of the specification. *)
Definition sample_exact : list AlignedSegment :=
  [read "p1" [("RG", "A")]; read "p2" [("RG", "B")]; read "p3" [("RG", "A")];
   read "p4" []; read "p5" [("RG", "AA")]].

(** The entries of the second example of the specification, and one more
    without the tag. *)
Definition sample_hamming : list AlignedSegment :=
  [read "q1" [("XC", "AC")]; read "q2" [("XC", "GG")]; read "q3" [];
   read "q4" [("XC", "AT")]].

(** The third example of the specification: the target has length 2 and the
    third entry carries a tag value of length 3. *)
Definition sample_mismatch : list AlignedSegment :=
  [read "q1" [("XC", "AC")]; read "q2" [("XC", "GG")]; read "q3" [("XC", "ACG")];
   read "q4" [("XC", "AT")]].

(** ** The Hamming distance *)

Section hamming_facts.
Context {A : Type} `{EqDecision A}.
Implicit Types s : list A.

Lemma differing_shift a b s1 s2 (l : list nat) :
  length (filter (λ i, (a :: s1) !! i ≠ (b :: s2) !! i) (S <$> l))
  = length (filter (λ i, s1 !! i ≠ s2 !! i) l).
Proof.
  induction l as [|i l IH]; [done|].
  rewrite fmap_cons, !filter_cons. simpl.
  destruct (decide (s1 !! i ≠ s2 !! i)); simpl; by rewrite IH.
Qed.

Lemma differing_positions_cons a b s1 s2 :
  differing_positions (a :: s1) (b :: s2)
  = mismatch (a, b) + differing_positions s1 s2.
Proof.
  unfold differing_positions, mismatch. simpl length at 2. simpl seq.
  rewrite filter_cons, <- fmap_S_seq. simpl.
  destruct (decide (Some a ≠ Some b)) as [Hne|Heq]; destruct (decide (a ≠ b)) as [Hab|Hab];
    simpl; rewrite ?differing_shift; try done.
  - destruct Hne. f_equal. by apply dec_stable.
  - destruct Heq. congruence.
Qed.

Lemma sum_mismatch_differing s1 s2 :
  length s1 = length s2 →
  sum_list (mismatch <$> zip s1 s2) = differing_positions s1 s2.
Proof.
  revert s2. induction s1 as [|a s1 IH]; intros [|b s2] Hlen; try done.
  simpl in Hlen. rewrite differing_positions_cons. simpl. f_equal. apply IH. lia.
Qed.

Lemma differing_positions_le s1 s2 : differing_positions s1 s2 ≤ length s1.
Proof.
  unfold differing_positions.
  etrans; [apply length_filter|]. by rewrite length_seq.
Qed.

Lemma differing_positions_refl s : differing_positions s s = 0.
Proof.
  unfold differing_positions.
  induction (seq 0 (length s)) as [|i l IH]; [done|].
  by rewrite filter_cons_False by (intros H'; by apply H').
Qed.

Lemma hamming_eq_length s1 s2 :
  length s1 = length s2 → hamming s1 s2 = inr (differing_positions s1 s2).
Proof.
  intros Hlen. unfold hamming. rewrite decide_True by done.
  f_equal. by apply sum_mismatch_differing.
Qed.

Lemma hamming_neq_length s1 s2 :
  length s1 ≠ length s2 → hamming s1 s2 = inl AssertionError.
Proof. intros Hlen. unfold hamming. by rewrite decide_False. Qed.
End hamming_facts.

(** ** What the loop body does with one entry *)

Lemma length_chars (s : string) : length (chars s) = String.length s.
Proof. unfold chars. induction s as [|c s IH]; simpl; congruence. Qed.

Lemma has_tag_true entry tag :
  has_tag entry tag = true ↔ ∃ value, aux_get (aux entry) tag = Some value.
Proof. unfold has_tag. by rewrite bool_decide_eq_true. Qed.

Lemma has_tag_false entry tag :
  has_tag entry tag = false ↔ aux_get (aux entry) tag = None.
Proof. unfold has_tag. by rewrite bool_decide_eq_false, <- eq_None_not_Some. Qed.

Lemma incr_bump i st : i < length (n st) → incr i st = (inr (), bump i st).
Proof.
  intros Hi. apply lookup_lt_is_Some_2 in Hi as [c Hc].
  unfold incr, mbind, M_bind, n_at, modify, bump. rewrite Hc.
  by rewrite (list_lookup_total_correct _ _ _ Hc).
Qed.

Lemma incr_out_of_range i st : length (n st) ≤ i → incr i st = (inl IndexError, st).
Proof.
  intros Hi. apply lookup_ge_None_2 in Hi.
  unfold incr, mbind, M_bind, n_at. by rewrite Hi.
Qed.

Lemma write_1_incr entry i st :
  i < length (n st) →
  (write outfile_1 entry ;; incr i) st = (inr (), bump i (put_1 entry st)).
Proof. intros Hi. unfold mbind, M_bind. simpl. by rewrite incr_bump. Qed.

Lemma write_2_incr entry i st :
  i < length (n st) →
  (write outfile_2 entry ;; incr i) st = (inr (), bump i (put_2 entry st)).
Proof. intros Hi. unfold mbind, M_bind. simpl. by rewrite incr_bump. Qed.

Lemma length_n_deliver o entry st : length (n (deliver o entry st)) = length (n st).
Proof. destruct o; simpl; by rewrite length_insert. Qed.

Lemma process_entry_missing args entry st :
  length (n st) = 3 →
  aux_get (aux entry) (tag_id args) = None →
  process_entry args entry st =
    (inr (), if discard_missing_tags args then bump 0 st else bump 1 (put_2 entry st)).
Proof.
  intros Hn Hnone. unfold process_entry.
  rewrite (proj2 (has_tag_false _ _) Hnone). simpl.
  destruct (discard_missing_tags args).
  - apply incr_bump. lia.
  - apply write_2_incr. lia.
Qed.

(** Enters the branch of [process_entry] for an entry that carries the tag,
    up to the test on [max_edit_dist]. *)
Ltac tagged_branch Htag :=
  unfold process_entry;
  rewrite (proj2 (has_tag_true _ _)) by eauto; simpl;
  unfold get_tag; rewrite Htag;
  unfold mbind at 1, M_bind at 1, mret, M_ret.

Lemma process_entry_exact args entry value st :
  length (n st) = 3 →
  aux_get (aux entry) (tag_id args) = Some value →
  (max_edit_dist args ≤ 0)%Z →
  process_entry args entry st =
    (inr (), if decide (value = tag_value args)
             then bump 2 (put_1 entry st) else bump 1 (put_2 entry st)).
Proof.
  intros Hn Hsome Hk. tagged_branch Hsome.
  rewrite (proj2 (Z.ltb_ge _ _) Hk).
  destruct (decide (value = tag_value args)) as [Heq|Hne].
  - rewrite bool_decide_eq_true_2 by done. apply write_1_incr. lia.
  - rewrite bool_decide_eq_false_2 by done. apply write_2_incr. lia.
Qed.

Lemma process_entry_hamming args entry value st :
  length (n st) = 3 →
  aux_get (aux entry) (tag_id args) = Some value →
  (0 < max_edit_dist args)%Z →
  String.length value = String.length (tag_value args) →
  process_entry args entry st =
    (inr (), if decide (Z.of_nat (differing_positions (chars (tag_value args)) (chars value))
                        ≤ max_edit_dist args)%Z
             then bump 2 (put_1 entry st) else bump 1 (put_2 entry st)).
Proof.
  intros Hn Hsome Hk Hlen. tagged_branch Hsome.
  rewrite (proj2 (Z.ltb_lt _ _) Hk).
  rewrite hamming_eq_length by (by rewrite !length_chars).
  unfold mbind at 1, M_bind at 1, lift.
  case_decide as Hd.
  - rewrite (proj2 (Z.leb_le _ _) Hd). apply write_1_incr. lia.
  - rewrite (proj2 (Z.leb_gt _ _)) by lia. apply write_2_incr. lia.
Qed.

Lemma process_entry_violation args entry value st :
  aux_get (aux entry) (tag_id args) = Some value →
  (0 < max_edit_dist args)%Z →
  String.length value ≠ String.length (tag_value args) →
  process_entry args entry st = (inl AssertionError, st).
Proof.
  intros Hsome Hk Hlen. tagged_branch Hsome.
  rewrite (proj2 (Z.ltb_lt _ _) Hk).
  rewrite hamming_neq_length by (rewrite !length_chars; congruence).
  done.
Qed.

Lemma differing_positions_sym {A} `{EqDecision A} (s1 s2 : list A) :
  length s1 = length s2 → differing_positions s1 s2 = differing_positions s2 s1.
Proof.
  intros Hlen. unfold differing_positions. rewrite Hlen. f_equal.
  apply list_filter_iff. intros i. split; intros Hi Heq; by apply Hi.
Qed.

(** The loop body carries out the outcome of the entry, and raises
    [AssertionError] without touching the state where there is none. *)
Lemma process_entry_outcome args entry st :
  length (n st) = 3 →
  process_entry args entry st =
    match outcome args entry with
    | Some o => (inr (), deliver o entry st)
    | None => (inl AssertionError, st)
    end.
Proof.
  intros Hn. unfold outcome, classify.
  destruct (aux_get (aux entry) (tag_id args)) as [value|] eqn:Htag.
  - destruct (decide (0 < max_edit_dist args)%Z) as [Hk|Hk].
    + destruct (decide (String.length value = String.length (tag_value args))) as [Hlen|Hlen].
      * rewrite (process_entry_hamming _ _ value) by done.
        rewrite (differing_positions_sym (chars value)) by (by rewrite !length_chars).
        by case_decide.
      * by apply (process_entry_violation _ _ value).
    + rewrite (process_entry_exact _ _ value) by (done || lia).
      by case_decide.
  - rewrite process_entry_missing by done.
    by destruct (discard_missing_tags args).
Qed.

(** ** The loop *)

Section run_facts.
Context (args : Args).
Implicit Types (entries : list AlignedSegment) (st : state).

Lemma processed_all entries :
  Forall (λ entry, is_Some (outcome args entry)) entries → processed args entries = entries.
Proof.
  induction 1 as [|entry rest [o Ho] _ IH]; simpl; [done|].
  by rewrite Ho, IH.
Qed.

Lemma processed_app_violation pre entry post :
  Forall (λ entry, is_Some (outcome args entry)) pre →
  outcome args entry = None →
  processed args (pre ++ entry :: post) = pre.
Proof.
  intros Hpre Hnone. induction Hpre as [|e rest [o Ho] _ IH]; simpl.
  - by rewrite Hnone.
  - by rewrite Ho, IH.
Qed.

Lemma processed_prefix entries : processed args entries `prefix_of` entries.
Proof.
  induction entries as [|entry rest IH]; simpl; [done|].
  destruct (outcome args entry); [by apply prefix_cons | apply prefix_nil].
Qed.

Lemma with_outcome_cons o entry rest :
  with_outcome args o (entry :: rest)
  = if decide (outcome args entry = Some o)
    then entry :: with_outcome args o rest else with_outcome args o rest.
Proof. unfold with_outcome. by rewrite filter_cons. Qed.

Lemma after_loop_nil st : length (n st) = 3 → after_loop args [] st = st.
Proof.
  intros Hn. destruct st as [o1 o2 [|a [|b [|c [|]]]] out cl]; try done.
  unfold after_loop, with_outcome. simpl. rewrite !app_nil_r.
  by rewrite !Nat.add_0_r.
Qed.

Lemma after_loop_cons o entry rest st :
  length (n st) = 3 →
  outcome args entry = Some o →
  after_loop args rest (deliver o entry st) = after_loop args (entry :: rest) st.
Proof.
  intros Hn Ho.
  destruct st as [o1 o2 [|a [|b [|c [|]]]] out cl]; try done.
  unfold after_loop. rewrite !with_outcome_cons, Ho.
  destruct o; simpl; rewrite <- ?app_assoc; simpl; f_equal; f_equal; try lia;
    f_equal; try lia; f_equal; lia.
Qed.

Lemma for_each_process entries st :
  length (n st) = 3 →
  for_each (process_entry args) entries st =
    (if decide (Forall (λ entry, is_Some (outcome args entry)) entries)
     then inr () else inl AssertionError,
     after_loop args (processed args entries) st).
Proof.
  revert st. induction entries as [|entry rest IH]; intros st Hn.
  - simpl. by rewrite after_loop_nil.
  - simpl. unfold mbind, M_bind. rewrite process_entry_outcome by done.
    destruct (outcome args entry) as [o|] eqn:Ho.
    + fold (@mbind M _). rewrite IH by (by rewrite length_n_deliver).
      rewrite after_loop_cons by done. f_equal.
      destruct (decide (Forall _ rest)) as [Hall|Hall].
      * rewrite decide_True; [done|]. constructor; [by eexists|done].
      * rewrite decide_False; [done|]. intros Hall'. apply Hall. by inversion Hall'.
    + rewrite after_loop_nil by done. rewrite decide_False; [done|].
      intros Hall. inversion Hall as [|? ? [? Hsome] _]. congruence.
Qed.

(** ** The whole run *)

Lemma violates_false entry : violates args entry = false ↔ is_Some (outcome args entry).
Proof.
  unfold violates, outcome, classify.
  destruct (aux_get (aux entry) (tag_id args)) as [value|].
  - destruct (decide (0 < max_edit_dist args)%Z) as [Hk|Hk].
    + rewrite (bool_decide_eq_true_2 _ Hk). simpl.
      destruct (decide (String.length value = String.length (tag_value args))) as [Hl|Hl].
      * rewrite bool_decide_eq_false_2 by (intros Hne; by apply Hne).
        split; [|done]. intros _. case_decide; by eexists.
      * rewrite bool_decide_eq_true_2 by done.
        split; [done|]. by intros [? ?].
    + rewrite (bool_decide_eq_false_2 _ Hk). simpl.
      split; [|done]. intros _. case_decide; by eexists.
  - split; [|done]. intros _. destruct (discard_missing_tags args); by eexists.
Qed.

Lemma violates_true entry : violates args entry = true ↔ outcome args entry = None.
Proof.
  rewrite eq_None_not_Some, <- violates_false. by destruct (violates args entry).
Qed.

Lemma Forall_violates_false entries :
  Forall (λ entry, violates args entry = false) entries
  ↔ Forall (λ entry, is_Some (outcome args entry)) entries.
Proof. apply Forall_iff. intros entry. apply violates_false. Qed.

Lemma run_cases entries :
  run args entries =
    if decide (Forall (λ entry, violates args entry = false) entries)
    then (inr (), final_state args entries)
    else (inl AssertionError, loop_state args entries).
Proof.
  unfold run, main. unfold mbind at 1, M_bind at 1.
  rewrite for_each_process by done.
  destruct (decide (Forall (λ entry, violates args entry = false) entries)) as [Hok|Hbad].
  - rewrite decide_True by (by apply Forall_violates_false).
    rewrite processed_all by (by apply Forall_violates_false).
    unfold final_state, summary, close, print, modify, sum_n, n_at, mbind, M_bind.
    cbn. by rewrite Nat.add_0_r, Nat.add_assoc.
  - rewrite decide_False; [done|]. by rewrite <- Forall_violates_false.
Qed.

Lemma run_complete entries :
  Forall (λ entry, violates args entry = false) entries →
  run args entries = (inr (), final_state args entries).
Proof. intros Hok. rewrite run_cases. by rewrite decide_True. Qed.

Lemma run_abort entries :
  Exists (λ entry, violates args entry = true) entries →
  run args entries = (inl AssertionError, loop_state args entries).
Proof.
  intros Hbad. rewrite run_cases. rewrite decide_False; [done|]. intros Hok.
  apply Exists_exists in Hbad as (entry & Hin & Hv).
  rewrite Forall_forall in Hok. specialize (Hok _ Hin). congruence.
Qed.

Lemma run_outputs entries :
  out_1 (run args entries).2 = with_outcome args Match (processed args entries) ∧
  out_2 (run args entries).2 = with_outcome args NoMatch (processed args entries).
Proof.
  rewrite run_cases. case_decide as Hok; [|done].
  rewrite processed_all by (by apply Forall_violates_false). done.
Qed.

Lemma processed_app pre rest :
  Forall (λ entry, violates args entry = false) pre →
  processed args (pre ++ rest) = pre ++ processed args rest.
Proof.
  induction 1 as [|entry pre Hv _ IH]; simpl; [done|].
  apply violates_false in Hv as [o Ho]. by rewrite Ho, IH.
Qed.

Lemma with_outcome_app o l1 l2 :
  with_outcome args o (l1 ++ l2) = with_outcome args o l1 ++ with_outcome args o l2.
Proof. apply filter_app. Qed.

(** The entries before the first one that violates the precondition. *)
Lemma first_violation entries :
  Exists (λ entry, violates args entry = true) entries →
  ∃ pre entry post,
    entries = pre ++ entry :: post ∧
    Forall (λ entry, violates args entry = false) pre ∧
    violates args entry = true.
Proof.
  induction 1 as [entry rest Hv|entry rest _ (pre & e & post & -> & Hpre & Hv)].
  - by exists [], entry, rest.
  - destruct (violates args entry) eqn:Hentry.
    + by exists [], entry, (pre ++ e :: post).
    + exists (entry :: pre), e, post. split; [done|]. split; [by constructor|done].
Qed.

End run_facts.

(** ** The claims *)

(** C6.  [hamming] on two sequences of equal length returns the number of
    index positions at which they differ; in particular it returns 0 on a
    sequence and itself, and never more than the common length.  On sequences
    of different lengths it returns nothing: the assertion fails. *)
Theorem hamming_counts_differing_positions {A} `{EqDecision A} (s1 s2 : list A) :
  (length s1 = length s2 →
     hamming s1 s2 = inr (differing_positions s1 s2) ∧
     differing_positions s1 s2 ≤ length s1) ∧
  hamming s1 s1 = inr 0 ∧
  (length s1 ≠ length s2 → hamming s1 s2 = inl AssertionError).
Proof.
  split; [|split].
  - intros Hlen. split; [by apply hamming_eq_length | apply differing_positions_le].
  - by rewrite hamming_eq_length, differing_positions_refl.
  - apply hamming_neq_length.
Qed.

Lemma hamming_counts_differing_positions_witness :
  length (chars "ACGT") = length (chars "AGGA") ∧
  hamming (chars "ACGT") (chars "AGGA") = inr 2 ∧
  length (chars "ACG") ≠ length (chars "AC") ∧
  hamming (chars "ACG") (chars "AC") = inl AssertionError.
Proof.
  split; [reflexivity|]. split.
  - exact (proj1 (proj1 (hamming_counts_differing_positions (chars "ACGT") (chars "AGGA"))
                    eq_refl)).
  - split; [simpl; lia|].
    apply (proj2 (proj2 (hamming_counts_differing_positions (chars "ACG") (chars "AC")))).
    simpl; lia.
Defined.

(** C3.  An entry without the tag: with [discard_missing_tags] it is written
    to neither output file and only [n[0]] goes up by one; without it the
    entry itself is appended to the second output file, the first is left as
    it is, and only [n[1]] goes up by one. *)
Theorem missing_tag_entry args entry st (a b c : nat) :
  n st = [a; b; c] →
  has_tag entry (tag_id args) = false →
  ∃ st', process_entry args entry st = (inr (), st') ∧
    out_1 st' = out_1 st ∧
    if discard_missing_tags args
    then out_2 st' = out_2 st ∧ n st' = [a + 1; b; c]
    else out_2 st' = out_2 st ++ [entry] ∧ n st' = [a; b + 1; c].
Proof.
  intros Hn Hmiss. apply has_tag_false in Hmiss.
  eexists. split; [apply process_entry_missing; [by rewrite Hn|done]|].
  destruct (discard_missing_tags args); simpl; by rewrite Hn.
Qed.

Lemma missing_tag_entry_witness :
  n init = [0; 0; 0] ∧
  has_tag untagged (tag_id args_discard) = false ∧
  (∃ st', process_entry args_discard untagged init = (inr (), st') ∧
     out_1 st' = [] ∧ out_2 st' = [] ∧ n st' = [1; 0; 0]) ∧
  (∃ st', process_entry args_exact untagged init = (inr (), st') ∧
     out_1 st' = [] ∧ out_2 st' = [untagged] ∧ n st' = [0; 1; 0]).
Proof.
  split; [reflexivity|]. split; [reflexivity|]. split.
  - destruct (missing_tag_entry args_discard untagged init 0 0 0 eq_refl eq_refl)
      as (st' & Hrun & H1 & H2 & Hn).
    exists st'. done.
  - destruct (missing_tag_entry args_exact untagged init 0 0 0 eq_refl eq_refl)
      as (st' & Hrun & H1 & H2 & Hn).
    exists st'. done.
Defined.

(** C4.  An entry with the tag, [max_edit_dist = 0]: the entry is appended to
    the first output file and [n[2]] goes up by one exactly when the tag
    value is the same string as [tag_value]; otherwise it is appended to the
    second output file and [n[1]] goes up by one. *)
Theorem exact_match_entry args entry value st (a b c : nat) :
  n st = [a; b; c] →
  aux_get (aux entry) (tag_id args) = Some value →
  max_edit_dist args = 0%Z →
  has_tag entry (tag_id args) = true ∧
  ∃ st', process_entry args entry st = (inr (), st') ∧
    (out_1 st' = out_1 st ++ [entry] ↔ value = tag_value args) ∧
    (value = tag_value args →
       out_1 st' = out_1 st ++ [entry] ∧ out_2 st' = out_2 st ∧ n st' = [a; b; c + 1]) ∧
    (value ≠ tag_value args →
       out_1 st' = out_1 st ∧ out_2 st' = out_2 st ++ [entry] ∧ n st' = [a; b + 1; c]).
Proof.
  intros Hn Htag Hk. split; [apply has_tag_true; eauto|].
  eexists. split; [apply (process_entry_exact _ _ value); [by rewrite Hn|done|lia]|].
  destruct (decide (value = tag_value args)) as [Heq|Hne]; simpl; rewrite Hn; simpl.
  - split; [done|]. split; [done|]. by intros Hne.
  - split; [|split; [done|done]].
    split; [|done]. intros Happ. apply (f_equal length) in Happ.
    rewrite length_app in Happ. simpl in Happ. lia.
Qed.

Lemma exact_match_entry_witness :
  n init = [0; 0; 0] ∧
  aux_get (aux (read "r1" [("RG", "a")])) (tag_id args_exact) = Some "a" ∧
  max_edit_dist args_exact = 0%Z ∧
  ∃ st', process_entry args_exact (read "r1" [("RG", "a")]) init = (inr (), st') ∧
    out_1 st' = [] ∧ out_2 st' = [read "r1" [("RG", "a")]] ∧ n st' = [0; 1; 0].
Proof.
  split; [reflexivity|]. split; [reflexivity|]. split; [reflexivity|].
  destruct (exact_match_entry args_exact (read "r1" [("RG", "a")]) "a" init 0 0 0
              eq_refl eq_refl eq_refl) as (_ & st' & Hrun & _ & _ & Hne).
  exists st'. split; [done|]. apply Hne. discriminate.
Defined.

(** C5.  An entry with the tag, [max_edit_dist = k > 0], tag value as long as
    [tag_value]: the entry is appended to the first output file and [n[2]]
    goes up by one exactly when the tag value and [tag_value] differ at no
    more than [k] positions; otherwise it is appended to the second output
    file and [n[1]] goes up by one. *)
Theorem hamming_match_entry args entry value st (a b c : nat) :
  n st = [a; b; c] →
  aux_get (aux entry) (tag_id args) = Some value →
  (0 < max_edit_dist args)%Z →
  String.length value = String.length (tag_value args) →
  let d := differing_positions (chars value) (chars (tag_value args)) in
  has_tag entry (tag_id args) = true ∧
  ∃ st', process_entry args entry st = (inr (), st') ∧
    (out_1 st' = out_1 st ++ [entry] ↔ (Z.of_nat d ≤ max_edit_dist args)%Z) ∧
    ((Z.of_nat d ≤ max_edit_dist args)%Z →
       out_1 st' = out_1 st ++ [entry] ∧ out_2 st' = out_2 st ∧ n st' = [a; b; c + 1]) ∧
    ((max_edit_dist args < Z.of_nat d)%Z →
       out_1 st' = out_1 st ∧ out_2 st' = out_2 st ++ [entry] ∧ n st' = [a; b + 1; c]).
Proof.
  intros Hn Htag Hk Hlen d. split; [apply has_tag_true; eauto|].
  eexists. split; [apply (process_entry_hamming _ _ value); [by rewrite Hn|done..]|].
  rewrite (differing_positions_sym (chars (tag_value args))) by (by rewrite !length_chars).
  fold d.
  destruct (decide (Z.of_nat d ≤ max_edit_dist args)%Z) as [Hd|Hd]; simpl; rewrite Hn; simpl.
  - split; [done|]. split; [done|]. lia.
  - split; [|split; [done|done]].
    split; [|done]. intros Happ. apply (f_equal length) in Happ.
    rewrite length_app in Happ. simpl in Happ. lia.
Qed.

Lemma hamming_match_entry_witness :
  n init = [0; 0; 0] ∧
  aux_get (aux (read "r2" [("XC", "GC")])) (tag_id args_hamming) = Some "GC" ∧
  (0 < max_edit_dist args_hamming)%Z ∧
  String.length "GC" = String.length (tag_value args_hamming) ∧
  ∃ st', process_entry args_hamming (read "r2" [("XC", "GC")]) init = (inr (), st') ∧
    out_1 st' = [read "r2" [("XC", "GC")]] ∧ out_2 st' = [] ∧ n st' = [0; 0; 1].
Proof.
  split; [reflexivity|]. split; [reflexivity|]. split; [reflexivity|].
  split; [reflexivity|].
  destruct (hamming_match_entry args_hamming (read "r2" [("XC", "GC")]) "GC" init 0 0 0
              eq_refl eq_refl eq_refl eq_refl) as (_ & st' & Hrun & _ & Hle & _).
  exists st'. split; [done|]. apply Hle. vm_compute. discriminate.
Defined.

Lemma incr_no_assertion i st : (incr i st).1 ≠ inl AssertionError.
Proof.
  destruct (decide (i < length (n st))) as [Hi|Hi].
  - by rewrite incr_bump.
  - by rewrite incr_out_of_range by lia.
Qed.

Lemma write_incr_no_assertion h entry i st :
  ((write h entry ;; incr i) st).1 ≠ inl AssertionError.
Proof.
  unfold mbind, M_bind. destruct h; simpl; [done|apply incr_no_assertion..].
Qed.

Lemma process_entry_exact_mode args entry st :
  (max_edit_dist args ≤ 0)%Z →
  process_entry args entry st = process_entry (exact_mode args) entry st.
Proof.
  intros Hk. unfold process_entry. simpl.
  by rewrite (proj2 (Z.ltb_ge _ _) Hk).
Qed.

Lemma for_each_exact_mode args entries st :
  (max_edit_dist args ≤ 0)%Z →
  for_each (process_entry args) entries st
  = for_each (process_entry (exact_mode args)) entries st.
Proof.
  intros Hk. revert st. induction entries as [|entry rest IH]; intros st; [done|].
  simpl. unfold mbind, M_bind. rewrite process_entry_exact_mode by done.
  destruct (process_entry (exact_mode args) entry st) as [[e|[]] st']; [done|].
  apply IH.
Qed.

Lemma violates_nonpositive args entry :
  (max_edit_dist args ≤ 0)%Z → violates args entry = false.
Proof.
  intros Hk. unfold violates. destruct (aux_get _ _); [|done].
  by rewrite bool_decide_eq_false_2 by lia.
Qed.

(** C10.  With [max_edit_dist ≤ 0] the loop body does what it does with
    [max_edit_dist = 0]: the assertion of [hamming] is never reached, every
    run gets to its end, and an entry whose tag value is not as long as
    [tag_value] goes to the second output file and is counted in [n[1]]. *)
Theorem nonpositive_distance_is_exact_mode args :
  (max_edit_dist args ≤ 0)%Z →
  (∀ entry st, process_entry args entry st = process_entry (exact_mode args) entry st) ∧
  (∀ entries st, for_each (process_entry args) entries st
                 = for_each (process_entry (exact_mode args)) entries st) ∧
  (∀ entry st, (process_entry args entry st).1 ≠ inl AssertionError) ∧
  (∀ entries, ∃ st, run args entries = (inr (), st)) ∧
  (∀ entry value st (a b c : nat),
     n st = [a; b; c] →
     aux_get (aux entry) (tag_id args) = Some value →
     String.length value ≠ String.length (tag_value args) →
     ∃ st', process_entry args entry st = (inr (), st') ∧
       out_1 st' = out_1 st ∧ out_2 st' = out_2 st ++ [entry] ∧ n st' = [a; b + 1; c]).
Proof.
  intros Hk. repeat split.
  - intros entry st. by apply process_entry_exact_mode.
  - intros entries st. by apply for_each_exact_mode.
  - intros entry st. unfold process_entry.
    destruct (has_tag entry (tag_id args)); simpl.
    + unfold get_tag. destruct (aux_get _ _) as [value|]; [|done].
      unfold mbind at 1, M_bind at 1, mret, M_ret.
      rewrite (proj2 (Z.ltb_ge _ _) Hk).
      destruct (bool_decide _);
        [apply (write_incr_no_assertion outfile_1) | apply (write_incr_no_assertion outfile_2)].
    + destruct (discard_missing_tags args);
        [apply incr_no_assertion | apply (write_incr_no_assertion outfile_2)].
  - intros entries. eexists. apply run_complete.
    apply Forall_forall. intros entry _. by apply violates_nonpositive.
  - intros entry value st a b c Hn Htag Hlen.
    eexists. split; [apply (process_entry_exact _ _ value); [by rewrite Hn|done..]|].
    rewrite decide_False by (intros ->; by apply Hlen).
    simpl. by rewrite Hn.
Qed.

Lemma nonpositive_distance_is_exact_mode_witness :
  (max_edit_dist args_negative ≤ 0)%Z ∧
  (∃ st, run args_negative [read "r3" [("XC", "ACG")]] = (inr (), st)) ∧
  ∃ st', process_entry args_negative (read "r3" [("XC", "ACG")]) init = (inr (), st') ∧
    out_1 st' = [] ∧ out_2 st' = [read "r3" [("XC", "ACG")]] ∧ n st' = [0; 1; 0].
Proof.
  assert (Hk : (max_edit_dist args_negative ≤ 0)%Z) by (simpl; lia).
  destruct (nonpositive_distance_is_exact_mode args_negative Hk)
    as (_ & _ & _ & Hrun & Hroute).
  split; [exact Hk|]. split; [apply Hrun|].
  apply (Hroute (read "r3" [("XC", "ACG")]) "ACG" init 0 0 0); [reflexivity..|].
  simpl. lia.
Defined.

Lemma processed_Forall args entries :
  Forall (λ entry, is_Some (outcome args entry)) (processed args entries).
Proof.
  induction entries as [|entry rest IH]; simpl; [done|].
  destruct (outcome args entry) as [o|] eqn:Ho; [|done].
  constructor; [by rewrite Ho|done].
Qed.

(** Every entry with an outcome is in exactly one of the three classes. *)
Lemma outcome_partition args entries :
  Forall (λ entry, is_Some (outcome args entry)) entries →
  length (with_outcome args Discard entries)
  + length (with_outcome args NoMatch entries)
  + length (with_outcome args Match entries) = length entries.
Proof.
  induction 1 as [|entry rest [o Ho] _ IH]; [done|].
  rewrite !with_outcome_cons, Ho. destruct o; simpl; lia.
Qed.

(** C2.  After every entry the loop has got through, and so at the end of
    the run, [n[0] + n[1] + n[2]] is the number of entries got through; the
    loop body puts up exactly one of the three counters, by exactly one. *)
Theorem counter_sum_invariant args entries :
  (∀ entry st (a b c : nat),
     n st = [a; b; c] →
     process_entry args entry st = (inl AssertionError, st) ∨
     ∃ st', process_entry args entry st = (inr (), st') ∧
       (n st' = [a + 1; b; c] ∨ n st' = [a; b + 1; c] ∨ n st' = [a; b; c + 1])) ∧
  (∃ a b c : nat,
     n (for_each (process_entry args) entries init).2 = [a; b; c] ∧
     a + b + c = length (processed args entries)) ∧
  (Forall (λ entry, violates args entry = false) entries →
     processed args entries = entries ∧
     ∃ st (a b c : nat), run args entries = (inr (), st) ∧
       n st = [a; b; c] ∧ a + b + c = length entries).
Proof.
  split; [|split].
  - intros entry st a b c Hn.
    rewrite process_entry_outcome by (by rewrite Hn).
    destruct (outcome args entry) as [o|]; [right|by left].
    eexists. split; [done|].
    destruct o; simpl; rewrite Hn; simpl; auto.
  - rewrite for_each_process by done. simpl.
    eexists _, _, _. split; [done|].
    apply outcome_partition, processed_Forall.
  - intros Hok. split; [by apply processed_all, Forall_violates_false|].
    eexists _, _, _, _. split; [by apply run_complete|]. split; [done|].
    by apply outcome_partition, Forall_violates_false.
Qed.

Lemma counter_sum_invariant_witness :
  Forall (λ entry, violates args_hamming entry = false) sample_hamming ∧
  ∃ st (a b c : nat), run args_hamming sample_hamming = (inr (), st) ∧
    n st = [a; b; c] ∧ a + b + c = 4.
Proof.
  assert (Hok : Forall (λ entry, violates args_hamming entry = false) sample_hamming)
    by (repeat constructor).
  split; [exact Hok|].
  exact (proj2 (proj2 (proj2 (counter_sum_invariant args_hamming sample_hamming)) Hok)).
Defined.

(** C7.  The first output file holds the entries with outcome [Match] and
    the second those with outcome [NoMatch], each in the order of the input:
    of the whole input when the run gets to its end, and in any case of the
    entries the loop got through. *)
Theorem order_preservation args entries :
  (Forall (λ entry, violates args entry = false) entries →
     ∃ st, run args entries = (inr (), st) ∧
       out_1 st = filter (λ entry, outcome args entry = Some Match) entries ∧
       out_2 st = filter (λ entry, outcome args entry = Some NoMatch) entries) ∧
  out_1 (run args entries).2
    = filter (λ entry, outcome args entry = Some Match) (processed args entries) ∧
  out_2 (run args entries).2
    = filter (λ entry, outcome args entry = Some NoMatch) (processed args entries).
Proof.
  split; [|apply run_outputs].
  intros Hok. eexists. split; [by apply run_complete|done].
Qed.

Lemma order_preservation_witness :
  Forall (λ entry, violates args_hamming entry = false) sample_hamming ∧
  ∃ st, run args_hamming sample_hamming = (inr (), st) ∧
    out_1 st = [read "q1" [("XC", "AC")]; read "q4" [("XC", "AT")]] ∧
    out_2 st = [read "q2" [("XC", "GG")]; read "q3" []].
Proof.
  assert (Hok : Forall (λ entry, violates args_hamming entry = false) sample_hamming)
    by (repeat constructor).
  split; [exact Hok|].
  exact (proj1 (order_preservation args_hamming sample_hamming) Hok).
Defined.

Lemma violates_spec args entry :
  violates args entry = true ↔
  (0 < max_edit_dist args)%Z ∧
  ∃ value, aux_get (aux entry) (tag_id args) = Some value ∧
           String.length value ≠ String.length (tag_value args).
Proof.
  unfold violates. destruct (aux_get (aux entry) (tag_id args)) as [value|].
  - rewrite andb_true_iff, !bool_decide_eq_true. split.
    + intros [Hk Hlen]. split; [done|]. by exists value.
    + intros [Hk (v & [= <-] & Hlen)]. done.
  - split; [done|]. by intros [_ (v & ? & _)].
Qed.

(** C8.  With [max_edit_dist > 0], when some entry carries a tag value that
    is not as long as [tag_value], the run ends with [AssertionError] at the
    first such entry: the exit status is not 0, nothing is printed, and the
    two output files hold what the loop wrote for the entries before it,
    which is a prefix of what any run over an input beginning with those
    entries writes. *)
Theorem length_mismatch_aborts args entries :
  (0 < max_edit_dist args)%Z →
  Exists (λ entry, ∃ value, aux_get (aux entry) (tag_id args) = Some value ∧
                            String.length value ≠ String.length (tag_value args))
         entries →
  ∃ pre entry post st,
    entries = pre ++ entry :: post ∧
    Forall (λ e, violates args e = false) pre ∧
    (∃ value, aux_get (aux entry) (tag_id args) = Some value ∧
              String.length value ≠ String.length (tag_value args)) ∧
    run args entries = (inl AssertionError, st) ∧
    exit_status (run args entries).1 ≠ 0%Z ∧
    stdout st = [] ∧
    for_each (process_entry args) pre init = (inr (), st) ∧
    out_1 st = filter (λ e, outcome args e = Some Match) pre ∧
    out_2 st = filter (λ e, outcome args e = Some NoMatch) pre ∧
    ∀ rest, out_1 st `prefix_of` out_1 (run args (pre ++ rest)).2 ∧
            out_2 st `prefix_of` out_2 (run args (pre ++ rest)).2.
Proof.
  intros Hk Hbad.
  assert (Hbad' : Exists (λ entry, violates args entry = true) entries).
  { eapply Exists_impl; [exact Hbad|]. intros entry Hentry. by apply violates_spec. }
  destruct (first_violation _ _ Hbad') as (pre & entry & post & -> & Hpre & Hv).
  pose proof (proj1 (Forall_violates_false _ _) Hpre) as Hpre'.
  exists pre, entry, post, (after_loop args pre init).
  assert (Hrun : run args (pre ++ entry :: post)
                 = (inl AssertionError, after_loop args pre init)).
  { rewrite run_abort by done. unfold loop_state.
    by rewrite processed_app_violation by (done || by apply violates_true). }
  split; [done|]. split; [done|].
  split; [by apply violates_spec in Hv as [_ ?]|].
  split; [done|]. split; [by rewrite Hrun|]. split; [done|].
  split.
  { rewrite for_each_process by done. rewrite decide_True by done.
    by rewrite processed_all. }
  split; [done|]. split; [done|].
  intros rest. destruct (run_outputs args (pre ++ rest)) as [-> ->].
  rewrite processed_app by done. rewrite !with_outcome_app. simpl.
  split; by apply prefix_app_r.
Qed.

Lemma length_mismatch_aborts_witness :
  (0 < max_edit_dist args_hamming)%Z ∧
  Exists (λ entry, ∃ value, aux_get (aux entry) (tag_id args_hamming) = Some value ∧
                            String.length value ≠ String.length (tag_value args_hamming))
         sample_mismatch ∧
  ∃ st, run args_hamming sample_mismatch = (inl AssertionError, st) ∧ stdout st = [].
Proof.
  assert (Hk : (0 < max_edit_dist args_hamming)%Z) by reflexivity.
  assert (Hbad : Exists (λ entry, ∃ value,
                   aux_get (aux entry) (tag_id args_hamming) = Some value ∧
                   String.length value ≠ String.length (tag_value args_hamming))
                   sample_mismatch).
  { do 2 apply Exists_cons_tl. apply Exists_cons_hd.
    exists "ACG". split; [reflexivity|]. simpl. lia. }
  split; [exact Hk|]. split; [exact Hbad|].
  destruct (length_mismatch_aborts args_hamming sample_mismatch Hk Hbad)
    as (pre & entry & post & st & _ & _ & _ & Hrun & _ & Hout & _).
  exists st. split; [exact Hrun | exact Hout].
Defined.

(** C9, as the claim has it, fails: after a run that ends with
    [AssertionError] no [close] has been called, not even on the input
    file. *)
Lemma streams_left_open_on_abort :
  (run args_hamming sample_mismatch).1 = inl AssertionError ∧
  closed (run args_hamming sample_mismatch).2 = [] ∧
  ¬ (∀ h : handle, h ∈ closed (run args_hamming sample_mismatch).2).
Proof.
  split; [reflexivity|]. split; [reflexivity|].
  intros Hall. specialize (Hall infile). vm_compute in Hall. by apply elem_of_nil in Hall.
Qed.

(** C9, amended.  A run that gets to its end has called [close] on the input
    file; a run that ends with [AssertionError] has not. *)
Theorem input_closed_on_completion args entries :
  (Forall (λ entry, violates args entry = false) entries →
     ∃ st, run args entries = (inr (), st) ∧ infile ∈ closed st) ∧
  (Exists (λ entry, violates args entry = true) entries →
     ∃ st, run args entries = (inl AssertionError, st) ∧ infile ∉ closed st).
Proof.
  split.
  - intros Hok. eexists. split; [by apply run_complete|]. simpl. apply list_elem_of_here.
  - intros Hbad. eexists. split; [by apply run_abort|]. simpl. apply not_elem_of_nil.
Qed.

Lemma input_closed_on_completion_witness :
  Forall (λ entry, violates args_hamming entry = false) sample_hamming ∧
  (∃ st, run args_hamming sample_hamming = (inr (), st) ∧ infile ∈ closed st) ∧
  Exists (λ entry, violates args_hamming entry = true) sample_mismatch ∧
  (∃ st, run args_hamming sample_mismatch = (inl AssertionError, st) ∧ infile ∉ closed st).
Proof.
  assert (Hok : Forall (λ entry, violates args_hamming entry = false) sample_hamming)
    by (repeat constructor).
  assert (Hbad : Exists (λ entry, violates args_hamming entry = true) sample_mismatch)
    by (do 2 apply Exists_cons_tl; by apply Exists_cons_hd).
  split; [exact Hok|].
  split; [exact (proj1 (input_closed_on_completion args_hamming sample_hamming) Hok)|].
  split; [exact Hbad|].
  exact (proj2 (input_closed_on_completion args_hamming sample_mismatch) Hbad).
Defined.

Lemma outcome_Discard args entry :
  outcome args entry = Some Discard ↔
  has_tag entry (tag_id args) = false ∧ discard_missing_tags args = true.
Proof.
  rewrite has_tag_false. unfold outcome, classify.
  destruct (aux_get (aux entry) (tag_id args)) as [value|].
  - split; [|by intros [? _]]. repeat case_decide; done.
  - destruct (discard_missing_tags args); split; try done. by intros [_ ?].
Qed.

Lemma with_outcome_Discard args entries :
  with_outcome args Discard entries
  = if discard_missing_tags args then missing_tag args entries else [].
Proof.
  unfold with_outcome, missing_tag.
  destruct (discard_missing_tags args) eqn:Hd.
  - apply list_filter_iff. intros entry. rewrite outcome_Discard, Hd.
    split; [by intros [? _]|done].
  - induction entries as [|entry rest IH]; [done|].
    rewrite filter_cons_False; [done|]. rewrite outcome_Discard, Hd. by intros [_ ?].
Qed.

Lemma missing_tag_kept args entry :
  discard_missing_tags args = false →
  has_tag entry (tag_id args) = false →
  outcome args entry = Some NoMatch.
Proof.
  intros Hd Hmiss. apply has_tag_false in Hmiss.
  unfold outcome, classify. by rewrite Hmiss, Hd.
Qed.

(** C1, as the claim has it, fails: without [discard_missing_tags] an entry
    without the tag is counted in [n[1]], and the second line reports 0. *)
Lemma missing_count_not_reported :
  (run args_exact [untagged]).1 = inr () ∧
  length (missing_tag args_exact [untagged]) = 1 ∧
  stdout (run args_exact [untagged]).2 !! 1 = Some (line_without_tag args_exact 0) ∧
  stdout (run args_exact [untagged]).2 !! 1
    ≠ Some (line_without_tag args_exact (length (missing_tag args_exact [untagged]))).
Proof.
  split; [reflexivity|]. split; [reflexivity|]. split; [reflexivity|].
  vm_compute. discriminate.
Qed.

(** C1, amended.  A run that gets to its end prints four lines: the number
    of entries; [n[0]], which is the number of entries without the tag when
    [discard_missing_tags] is set and 0 when it is not; [n[1]], the number of
    entries with outcome [NoMatch], among them every entry without the tag
    when [discard_missing_tags] is not set; and [n[2]], the number of entries
    with outcome [Match], with [max_edit_dist]. *)
Theorem summary_lines args entries :
  Forall (λ entry, violates args entry = false) entries →
  (∃ st, run args entries = (inr (), st) ∧
     stdout st =
       [line_processed (length entries);
        line_without_tag args
          (if discard_missing_tags args then length (missing_tag args entries) else 0);
        line_not_equal args (length (with_outcome args NoMatch entries));
        line_equal args (length (with_outcome args Match entries))]) ∧
  (discard_missing_tags args = false →
     ∀ entry, entry ∈ missing_tag args entries → entry ∈ with_outcome args NoMatch entries).
Proof.
  intros Hok. split.
  - eexists. split; [by apply run_complete|]. simpl.
    rewrite outcome_partition by (by apply Forall_violates_false).
    rewrite with_outcome_Discard. by destruct (discard_missing_tags args).
  - intros Hd entry. unfold missing_tag, with_outcome.
    rewrite !list_elem_of_filter. intros [Hmiss Hin].
    split; [by apply missing_tag_kept|done].
Qed.

Lemma summary_lines_witness :
  Forall (λ entry, violates args_exact entry = false) sample_exact ∧
  (∃ st, run args_exact sample_exact = (inr (), st) ∧
     stdout st =
       ["Processed 5 lines"; "Found 0 lines without the tag RG";
        "Found 3 lines where RG != A";
        "Found 2 lines where RG == A with an edit distance of maximum 0"]) ∧
  Forall (λ entry, violates args_discard entry = false) sample_exact ∧
  (∃ st, run args_discard sample_exact = (inr (), st) ∧
     stdout st =
       ["Processed 5 lines"; "Found 1 lines without the tag RG";
        "Found 2 lines where RG != A";
        "Found 2 lines where RG == A with an edit distance of maximum 0"]).
Proof.
  assert (Hok : Forall (λ entry, violates args_exact entry = false) sample_exact)
    by (repeat constructor).
  assert (Hok' : Forall (λ entry, violates args_discard entry = false) sample_exact)
    by (repeat constructor).
  split; [exact Hok|].
  split; [exact (proj1 (summary_lines args_exact sample_exact Hok))|].
  split; [exact Hok'|].
  exact (proj1 (summary_lines args_discard sample_exact Hok')).
Defined.

(** ** Further properties of [hamming] *)

Section hamming_metric.
Context {A : Type} `{EqDecision A}.
Implicit Types s : list A.

Lemma hamming_inr s1 s2 d :
  hamming s1 s2 = inr d ↔
  length s1 = length s2 ∧ sum_list (mismatch <$> zip s1 s2) = d.
Proof.
  unfold hamming. case_decide as Hlen.
  - split; [by intros [= <-]|by intros [_ <-]].
  - split; [done|]. by intros [? _].
Qed.

Lemma mismatch_triangle (a b c : A) :
  mismatch (a, c) ≤ mismatch (a, b) + mismatch (b, c).
Proof.
  unfold mismatch. simpl.
  destruct (decide (a = b)) as [->|Hab]; destruct (decide (b = c)) as [->|Hbc];
    repeat case_decide; try lia; try done.
Qed.

Lemma sum_mismatch_triangle s1 s2 s3 :
  length s1 = length s2 → length s2 = length s3 →
  sum_list (mismatch <$> zip s1 s3)
  ≤ sum_list (mismatch <$> zip s1 s2) + sum_list (mismatch <$> zip s2 s3).
Proof.
  revert s2 s3. induction s1 as [|a s1 IH]; intros [|b s2] [|c s3] H12 H23; try done.
  simpl in *. pose proof (mismatch_triangle a b c).
  specialize (IH s2 s3 ltac:(lia) ltac:(lia)). unfold fmap in IH. lia.
Qed.

Lemma sum_mismatch_zero s1 s2 :
  length s1 = length s2 → sum_list (mismatch <$> zip s1 s2) = 0 → s1 = s2.
Proof.
  revert s2. induction s1 as [|a s1 IH]; intros [|b s2] Hlen Hsum; try done.
  simpl in *. unfold mismatch in Hsum at 1. simpl in Hsum.
  destruct (decide (a = b)) as [->|Hab].
  - f_equal. apply IH; [lia|]. repeat case_decide; try done; unfold fmap; lia.
  - repeat case_decide; try done; lia.
Qed.

Lemma sum_mismatch_app s1 s2 t1 t2 :
  length s1 = length t1 →
  sum_list (mismatch <$> zip (s1 ++ s2) (t1 ++ t2))
  = sum_list (mismatch <$> zip s1 t1) + sum_list (mismatch <$> zip s2 t2).
Proof.
  intros Hlen. rewrite (zip_with_app pair s1 s2 t1 t2 Hlen).
  by rewrite fmap_app, sum_list_with_app.
Qed.

(** X1.  [hamming] does not depend on the order of its two arguments, also
    where it fails. *)
Theorem hamming_symmetric s1 s2 : hamming s1 s2 = hamming s2 s1.
Proof.
  destruct (decide (length s1 = length s2)) as [Hlen|Hlen].
  - rewrite !hamming_eq_length by done. f_equal. by apply differing_positions_sym.
  - by rewrite !hamming_neq_length.
Qed.

(** X2.  [hamming] returns 0 on equal sequences and on no others. *)
Theorem hamming_zero_iff_equal s1 s2 : hamming s1 s2 = inr 0 ↔ s1 = s2.
Proof.
  rewrite hamming_inr. split.
  - intros [Hlen Hsum]. by apply sum_mismatch_zero.
  - intros <-. split; [done|].
    rewrite sum_mismatch_differing by done. apply differing_positions_refl.
Qed.

(** X3.  Triangle inequality: for three sequences of one length, the distance
    from the first to the third is at most the sum of the other two. *)
Theorem hamming_triangle s1 s2 s3 d12 d23 :
  hamming s1 s2 = inr d12 →
  hamming s2 s3 = inr d23 →
  ∃ d13, hamming s1 s3 = inr d13 ∧ d13 ≤ d12 + d23.
Proof.
  rewrite !hamming_inr. intros [H12 <-] [H23 <-].
  eexists. split; [apply hamming_inr; split; [congruence|done]|].
  by apply sum_mismatch_triangle.
Qed.

(** X4.  The distance of two concatenations is the sum of the distances of
    the parts, when the parts are of equal lengths. *)
Theorem hamming_app s1 s2 t1 t2 d1 d2 :
  hamming s1 t1 = inr d1 →
  hamming s2 t2 = inr d2 →
  hamming (s1 ++ s2) (t1 ++ t2) = inr (d1 + d2).
Proof.
  rewrite !hamming_inr. intros [H1 <-] [H2 <-]. split.
  - rewrite !length_app. lia.
  - by apply sum_mismatch_app.
Qed.

End hamming_metric.

Lemma hamming_triangle_witness :
  hamming (chars "ACGT") (chars "AGGT") = inr 1 ∧
  hamming (chars "AGGT") (chars "AGTA") = inr 2 ∧
  ∃ d13, hamming (chars "ACGT") (chars "AGTA") = inr d13 ∧ d13 ≤ 1 + 2.
Proof.
  split; [reflexivity|]. split; [reflexivity|].
  exact (hamming_triangle (chars "ACGT") (chars "AGGT") (chars "AGTA") 1 2 eq_refl eq_refl).
Defined.

Lemma hamming_app_witness :
  hamming (chars "AC") (chars "AG") = inr 1 ∧
  hamming (chars "GT") (chars "TA") = inr 2 ∧
  hamming (chars "AC" ++ chars "GT") (chars "AG" ++ chars "TA") = inr (1 + 2).
Proof.
  split; [reflexivity|]. split; [reflexivity|].
  exact (hamming_app (chars "AC") (chars "GT") (chars "AG") (chars "TA") 1 2 eq_refl eq_refl).
Defined.

(** ** Further properties of the run *)

Section run_properties.
Context (args : Args).
Implicit Types (entries : list AlignedSegment) (entry : AlignedSegment) (st : state).

Lemma run_counters entries :
  n (run args entries).2
  = [length (with_outcome args Discard (processed args entries));
     length (with_outcome args NoMatch (processed args entries));
     length (with_outcome args Match (processed args entries))].
Proof.
  rewrite run_cases. case_decide as Hok; [|done].
  by rewrite processed_all by (by apply Forall_violates_false).
Qed.

Lemma elem_of_processed entries entry :
  entry ∈ processed args entries → entry ∈ entries.
Proof. intros Hin. eapply elem_of_prefix; [done|apply processed_prefix]. Qed.

Lemma not_all_some_violates entries :
  ¬ Forall (λ entry, violates args entry = false) entries →
  Exists (λ entry, violates args entry = true) entries.
Proof.
  intros Hnot. apply not_Forall_Exists in Hnot; [|apply _].
  eapply Exists_impl; [exact Hnot|]. intros entry Hv. simpl in Hv.
  by destruct (violates args entry).
Qed.

(** X5.  Over entries whose tag values are strings, which is what [aux]
    holds: a run gets to its end exactly when no entry carries a tag value of
    another length than [tag_value] under [max_edit_dist > 0], and ends with
    the [AssertionError] of [hamming] exactly when some entry does.  The
    guards of the script hold in every run: [get_tag] is not reached on an
    entry without the tag, so no run ends with [KeyError], and [n] is not
    indexed out of range, so no run ends with [IndexError]. *)
Theorem run_completes_iff entries :
  ((run args entries).1 = inr () ↔ Forall (λ entry, violates args entry = false) entries) ∧
  ((run args entries).1 = inl AssertionError ↔
     Exists (λ entry, violates args entry = true) entries) ∧
  (run args entries).1 ≠ inl KeyError ∧
  (run args entries).1 ≠ inl IndexError.
Proof.
  rewrite run_cases. case_decide as Hok; simpl.
  - split; [done|]. split; [|done]. split; [done|].
    intros Hbad. apply Exists_exists in Hbad as (entry & Hin & Hv).
    rewrite Forall_forall in Hok. specialize (Hok _ Hin). congruence.
  - split; [split; [done|by intros ?]|]. split; [|done].
    split; [|done]. intros _. by apply not_all_some_violates.
Qed.

(** X6.  After every iteration of the loop, and at the end of every run,
    [n[2]] is the number of entries in the first output file and [n[1]] the
    number of entries in the second.  (Within an iteration the entry is
    written before the counter goes up.) *)
Theorem counters_match_files entries :
  (∃ d, n (for_each (process_entry args) entries init).2
        = [d; length (out_2 (for_each (process_entry args) entries init).2);
              length (out_1 (for_each (process_entry args) entries init).2)]) ∧
  (∃ d, n (run args entries).2
        = [d; length (out_2 (run args entries).2); length (out_1 (run args entries).2)]).
Proof.
  split.
  - rewrite for_each_process by done. simpl. by eexists.
  - destruct (run_outputs args entries) as [-> ->]. rewrite run_counters. by eexists.
Qed.

(** X14.  No run calls [close] on either output file. *)
Theorem output_files_never_closed entries :
  (outfile_1 ∉ closed (run args entries).2) ∧ (outfile_2 ∉ closed (run args entries).2).
Proof.
  rewrite run_cases. case_decide; simpl.
  - split; intros Hin; apply list_elem_of_singleton in Hin; discriminate.
  - split; apply not_elem_of_nil.
Qed.

(** X11.  An input in two parts: when the loop gets through the first part,
    each output file of the run over the whole is that of the run over the
    first part followed by that of the run over the second, the counters are
    the sums, and the whole run ends as the run over the second part does. *)
Theorem run_in_two_parts entries1 entries2 :
  Forall (λ entry, violates args entry = false) entries1 →
  out_1 (run args (entries1 ++ entries2)).2
    = out_1 (run args entries1).2 ++ out_1 (run args entries2).2 ∧
  out_2 (run args (entries1 ++ entries2)).2
    = out_2 (run args entries1).2 ++ out_2 (run args entries2).2 ∧
  n (run args (entries1 ++ entries2)).2
    = zip_with Nat.add (n (run args entries1).2) (n (run args entries2).2) ∧
  (run args (entries1 ++ entries2)).1 = (run args entries2).1.
Proof.
  intros Hok1.
  destruct (run_outputs args (entries1 ++ entries2)) as [-> ->].
  destruct (run_outputs args entries1) as [-> ->].
  destruct (run_outputs args entries2) as [-> ->].
  rewrite !run_counters, processed_app by done.
  rewrite (processed_all args entries1) by (by apply Forall_violates_false).
  rewrite !with_outcome_app, !length_app.
  split; [done|]. split; [done|]. split; [done|].
  rewrite !run_cases.
  destruct (decide (Forall (λ entry, violates args entry = false) entries2)) as [Hok2|Hbad2].
  - rewrite decide_True; [done|]. by apply Forall_app.
  - rewrite decide_False; [done|]. intros Hall. apply Forall_app in Hall as [_ ?]. done.
Qed.

End run_properties.

Lemma run_in_two_parts_witness :
  Forall (λ entry, violates args_hamming entry = false) sample_hamming ∧
  out_1 (run args_hamming (sample_hamming ++ sample_mismatch)).2
    = out_1 (run args_hamming sample_hamming).2 ++ out_1 (run args_hamming sample_mismatch).2 ∧
  (run args_hamming (sample_hamming ++ sample_mismatch)).1 = inl AssertionError.
Proof.
  assert (Hok : Forall (λ entry, violates args_hamming entry = false) sample_hamming)
    by (repeat constructor).
  destruct (run_in_two_parts args_hamming sample_hamming sample_mismatch Hok)
    as (H1 & _ & _ & Hres).
  split; [exact Hok|]. split; [exact H1|]. exact Hres.
Defined.

(** ** Filters and outcomes *)

Section filter_facts.
Context {A : Type} (P Q : A → Prop) `{!∀ x, Decision (P x), !∀ x, Decision (Q x)}.

Lemma filter_Forall_iff (l : list A) :
  Forall (λ x, P x ↔ Q x) l → filter P l = filter Q l.
Proof.
  induction 1 as [|x l Hx _ IH]; [done|].
  rewrite !filter_cons, IH.
  destruct (decide (P x)) as [HP|HP], (decide (Q x)) as [HQ|HQ]; try done.
  - destruct HQ. by apply Hx.
  - destruct HP. by apply Hx.
Qed.

Lemma filter_Forall_all (l : list A) : Forall P l → filter P l = l.
Proof.
  induction 1 as [|x l Hx _ IH]; [done|]. by rewrite filter_cons_True, IH.
Qed.

Lemma filter_Forall_none (l : list A) : Forall (λ x, ¬ P x) l → filter P l = [].
Proof.
  induction 1 as [|x l Hx _ IH]; [done|]. by rewrite filter_cons_False.
Qed.

Lemma filter_Forall_sublist (l : list A) :
  Forall (λ x, P x → Q x) l → filter P l `sublist_of` filter Q l.
Proof.
  induction 1 as [|x l Hx _ IH]; [done|].
  rewrite !filter_cons.
  destruct (decide (P x)) as [HP|HP], (decide (Q x)) as [HQ|HQ].
  - by apply sublist_skip.
  - destruct HQ. by apply Hx.
  - by apply sublist_cons.
  - done.
Qed.

End filter_facts.

Section outcome_facts.
Context (args : Args).
Implicit Types (entries : list AlignedSegment) (entry : AlignedSegment).

Lemma outcome_Match entry :
  outcome args entry = Some Match ↔
  ∃ value, aux_get (aux entry) (tag_id args) = Some value ∧ matches args value.
Proof.
  unfold outcome, classify, matches.
  destruct (aux_get (aux entry) (tag_id args)) as [value|].
  - split.
    + intros Ho. exists value. split; [done|]. repeat case_decide; (done || lia).
    + intros (v & [= <-] & Hv). repeat case_decide; try done; try lia;
        destruct Hv; (done || lia).
  - split; [|by intros (v & ? & _)]. by destruct (discard_missing_tags args).
Qed.

Lemma outcome_NoMatch entry :
  outcome args entry = Some NoMatch ↔
  (aux_get (aux entry) (tag_id args) = None ∧ discard_missing_tags args = false) ∨
  ∃ value, aux_get (aux entry) (tag_id args) = Some value ∧ mismatches args value.
Proof.
  unfold outcome, classify, mismatches.
  destruct (aux_get (aux entry) (tag_id args)) as [value|].
  - split.
    + intros Ho. right. exists value. split; [done|]. repeat case_decide; (done || lia).
    + intros [[? _]|(v & [= <-] & Hv)]; [done|].
      repeat case_decide; try done; try lia; destruct Hv; (done || lia).
  - split; [|intros [[_ ->]|(v & ? & _)]; done].
    destruct (discard_missing_tags args); [done|]. by left.
Qed.

End outcome_facts.

(** ** What the output files hold *)

Section output_properties.
Context (args : Args).
Implicit Types (entries : list AlignedSegment) (entry : AlignedSegment).

Lemma with_outcome_kept entries :
  Forall (λ entry, is_Some (outcome args entry)) entries →
  with_outcome args Match entries ++ with_outcome args NoMatch entries
  ≡ₚ filter (λ entry, outcome args entry ≠ Some Discard) entries.
Proof.
  induction 1 as [|entry rest [o Ho] _ IH]; [done|].
  rewrite !with_outcome_cons, filter_cons, Ho.
  destruct o; simpl.
  - done.
  - rewrite <- Permutation_middle. by f_equiv.
  - by f_equiv.
Qed.

Lemma kept_entries entries :
  Forall (λ entry, is_Some (outcome args entry)) entries →
  filter (λ entry, outcome args entry ≠ Some Discard) entries
  = if discard_missing_tags args
    then filter (λ entry, has_tag entry (tag_id args) = true) entries
    else entries.
Proof.
  intros Hok. destruct (discard_missing_tags args) eqn:Hd.
  - apply list_filter_iff. intros entry. rewrite outcome_Discard, Hd.
    destruct (has_tag entry (tag_id args)); split; try done.
    + by intros _ [? _].
    + intros Hne. destruct Hne. done.
  - apply filter_Forall_all, Forall_forall. intros entry _.
    rewrite outcome_Discard, Hd. by intros [_ ?].
Qed.

(** X7.  A run that gets to its end loses and repeats nothing: the two output
    files together hold the entries of the input, each as often as the input
    has it, less the entries without the tag when [discard_missing_tags] is
    set. *)
Theorem nothing_lost entries :
  Forall (λ entry, violates args entry = false) entries →
  out_1 (run args entries).2 ++ out_2 (run args entries).2
  ≡ₚ if discard_missing_tags args
     then filter (λ entry, has_tag entry (tag_id args) = true) entries
     else entries.
Proof.
  intros Hok. apply Forall_violates_false in Hok.
  destruct (run_outputs args entries) as [-> ->].
  rewrite processed_all by done.
  rewrite with_outcome_kept by done. by rewrite kept_entries.
Qed.

(** X8.  What a run never writes: an entry in the first output file is an
    entry of the input that carries the tag with a value that passes the
    test of the loop body; an entry in the second is an entry of the input
    that carries the tag with a value that fails the test, or is without the
    tag while [discard_missing_tags] is not set. *)
Theorem outputs_sound entries entry :
  (entry ∈ out_1 (run args entries).2 →
     entry ∈ entries ∧
     ∃ value, aux_get (aux entry) (tag_id args) = Some value ∧ matches args value) ∧
  (entry ∈ out_2 (run args entries).2 →
     entry ∈ entries ∧
     ((has_tag entry (tag_id args) = false ∧ discard_missing_tags args = false) ∨
      ∃ value, aux_get (aux entry) (tag_id args) = Some value ∧ mismatches args value)).
Proof.
  destruct (run_outputs args entries) as [-> ->]. unfold with_outcome.
  rewrite !list_elem_of_filter. split.
  - intros [Ho Hin]. split; [by apply (elem_of_processed args)|]. by apply outcome_Match.
  - intros [Ho Hin]. split; [by apply (elem_of_processed args)|].
    rewrite has_tag_false. by apply outcome_NoMatch.
Qed.

Lemma with_outcome_ok o entries :
  Forall (λ entry, violates args entry = false) (with_outcome args o entries).
Proof.
  apply Forall_forall. intros entry [Ho _]%list_elem_of_filter.
  apply violates_false. by rewrite Ho.
Qed.

Lemma with_outcome_same o entries :
  with_outcome args o (with_outcome args o entries) = with_outcome args o entries.
Proof.
  apply filter_Forall_all, Forall_forall. by intros entry [Ho _]%list_elem_of_filter.
Qed.

Lemma with_outcome_other o o' entries :
  o ≠ o' → with_outcome args o' (with_outcome args o entries) = [].
Proof.
  intros Hne. apply filter_Forall_none, Forall_forall.
  intros entry [Ho _]%list_elem_of_filter. rewrite Ho. congruence.
Qed.

(** X12.  Splitting an output file again changes nothing: a run over the
    first output file of a run gets to its end, writes all of it to the first
    output file and counts it in [n[2]]; a run over the second writes all of
    it to the second and counts it in [n[1]]. *)
Theorem splitting_again entries :
  (∃ st, run args (out_1 (run args entries).2) = (inr (), st) ∧
     out_1 st = out_1 (run args entries).2 ∧ out_2 st = [] ∧
     n st = [0; 0; length (out_1 (run args entries).2)]) ∧
  (∃ st, run args (out_2 (run args entries).2) = (inr (), st) ∧
     out_1 st = [] ∧ out_2 st = out_2 (run args entries).2 ∧
     n st = [0; length (out_2 (run args entries).2); 0]).
Proof.
  destruct (run_outputs args entries) as [-> ->]. split.
  - eexists. split; [apply run_complete, with_outcome_ok|]. simpl.
    rewrite with_outcome_same, !with_outcome_other by done. done.
  - eexists. split; [apply run_complete, with_outcome_ok|]. simpl.
    rewrite with_outcome_same, !with_outcome_other by done. done.
Qed.

End output_properties.

Lemma nothing_lost_witness :
  Forall (λ entry, violates args_discard entry = false) sample_exact ∧
  out_1 (run args_discard sample_exact).2 ++ out_2 (run args_discard sample_exact).2
  ≡ₚ [read "p1" [("RG", "A")]; read "p2" [("RG", "B")]; read "p3" [("RG", "A")];
      read "p5" [("RG", "AA")]].
Proof.
  assert (Hok : Forall (λ entry, violates args_discard entry = false) sample_exact)
    by (repeat constructor).
  split; [exact Hok|]. exact (nothing_lost args_discard sample_exact Hok).
Defined.

Lemma outputs_sound_witness :
  read "q1" [("XC", "AC")] ∈ out_1 (run args_hamming sample_mismatch).2 ∧
  read "q1" [("XC", "AC")] ∈ sample_mismatch ∧
  ∃ value, aux_get (aux (read "q1" [("XC", "AC")])) (tag_id args_hamming) = Some value ∧
           matches args_hamming value.
Proof.
  assert (Hin : read "q1" [("XC", "AC")] ∈ out_1 (run args_hamming sample_mismatch).2)
    by apply list_elem_of_here.
  split; [exact Hin|].
  exact (proj1 (outputs_sound args_hamming sample_mismatch (read "q1" [("XC", "AC")])) Hin).
Defined.

(** ** The two options *)

Lemma run_result args entries :
  (run args entries).1
  = if decide (Forall (λ entry, violates args entry = false) entries)
    then inr () else inl AssertionError.
Proof. rewrite run_cases. by case_decide. Qed.

Lemma processed_same_violations args args' entries :
  (∀ entry, violates args entry = violates args' entry) →
  processed args entries = processed args' entries.
Proof.
  intros Hv. induction entries as [|entry rest IH]; simpl; [done|].
  destruct (outcome args entry) as [o|] eqn:Ho.
  - assert (is_Some (outcome args' entry)) as [o' ->].
    { apply violates_false. rewrite <- Hv. apply violates_false. by rewrite Ho. }
    by rewrite IH.
  - apply violates_true in Ho. rewrite Hv in Ho. apply violates_true in Ho.
    by rewrite Ho.
Qed.

(** X9.  [discard_missing_tags] does not change how a run ends nor the first
    output file, and takes the entries without the tag, and no others, out of
    the second. *)
Theorem discard_only_drops_untagged args entries :
  (run (set_discard true args) entries).1 = (run (set_discard false args) entries).1 ∧
  out_1 (run (set_discard true args) entries).2
    = out_1 (run (set_discard false args) entries).2 ∧
  out_2 (run (set_discard true args) entries).2
    = filter (λ entry, has_tag entry (tag_id args) = true)
        (out_2 (run (set_discard false args) entries).2).
Proof.
  split; [|split].
  - rewrite !run_result.
    destruct (decide (Forall (λ entry, violates (set_discard true args) entry = false)
                        entries)) as [Hok|Hbad].
    + by rewrite decide_True.
    + by rewrite decide_False.
  - destruct (run_outputs (set_discard true args) entries) as [-> _].
    destruct (run_outputs (set_discard false args) entries) as [-> _].
    rewrite (processed_same_violations _ (set_discard false args)) by done.
    apply list_filter_iff. intros entry. by rewrite !outcome_Match.
  - destruct (run_outputs (set_discard true args) entries) as [_ ->].
    destruct (run_outputs (set_discard false args) entries) as [_ ->].
    rewrite (processed_same_violations _ (set_discard false args)) by done.
    unfold with_outcome. rewrite list_filter_filter.
    apply list_filter_iff. intros entry. rewrite !outcome_NoMatch, has_tag_true. simpl.
    split.
    + intros [[_ ?]|(value & Htag & Hv)]; [done|].
      split; [by exists value|]. right. by exists value.
    + intros [(value & Htag) [[Hnone _]|Hsome]]; [congruence|]. by right.
Qed.

Lemma same_length_no_violation args k entry :
  same_length args entry = true → violates (set_max_edit_dist k args) entry = false.
Proof.
  unfold same_length, violates. simpl.
  destruct (aux_get (aux entry) (tag_id args)) as [value|]; [|done].
  intros Hlen%bool_decide_eq_true.
  rewrite (bool_decide_eq_false_2 (_ ≠ _)) by (intros Hne; by apply Hne).
  apply andb_false_r.
Qed.

Lemma matches_monotone args k k' value :
  (k ≤ k')%Z →
  matches (set_max_edit_dist k args) value → matches (set_max_edit_dist k' args) value.
Proof.
  intros Hk. unfold matches. cbn [max_edit_dist tag_value set_max_edit_dist].
  destruct (decide (0 < k)%Z) as [H0|H0], (decide (0 < k')%Z) as [H0'|H0'].
  - intros [Hlen Hd]. split; [done|lia].
  - lia.
  - intros ->. split; [done|]. rewrite differing_positions_refl. lia.
  - done.
Qed.

Lemma mismatches_antitone args k k' value :
  (k ≤ k')%Z →
  mismatches (set_max_edit_dist k' args) value → mismatches (set_max_edit_dist k args) value.
Proof.
  intros Hk. unfold mismatches. cbn [max_edit_dist tag_value set_max_edit_dist].
  destruct (decide (0 < k)%Z) as [H0|H0], (decide (0 < k')%Z) as [H0'|H0'].
  - intros [Hlen Hd]. split; [done|lia].
  - lia.
  - intros [Hlen Hd] ->. rewrite differing_positions_refl in Hd. lia.
  - done.
Qed.

(** X10.  A larger [max_edit_dist] matches more: over an input in which every
    tag value is as long as [tag_value], both runs get to their end, the
    first output file under the smaller distance is a sublist of the one
    under the larger, and the second output file under the larger is a
    sublist of the one under the smaller. *)
Theorem larger_distance_matches_more args (k k' : Z) entries :
  (k ≤ k')%Z →
  Forall (λ entry, same_length args entry = true) entries →
  (run (set_max_edit_dist k args) entries).1 = inr () ∧
  (run (set_max_edit_dist k' args) entries).1 = inr () ∧
  out_1 (run (set_max_edit_dist k args) entries).2
    `sublist_of` out_1 (run (set_max_edit_dist k' args) entries).2 ∧
  out_2 (run (set_max_edit_dist k' args) entries).2
    `sublist_of` out_2 (run (set_max_edit_dist k args) entries).2.
Proof.
  intros Hk Hlen.
  assert (Hok : ∀ j, Forall (λ entry, violates (set_max_edit_dist j args) entry = false)
                       entries).
  { intros j. eapply Forall_impl; [exact Hlen|]. intros entry.
    apply same_length_no_violation. }
  rewrite !run_complete by done. simpl.
  split; [done|]. split; [done|]. split.
  - apply filter_Forall_sublist, Forall_forall. intros entry _.
    rewrite !outcome_Match. simpl. intros (value & Htag & Hv).
    exists value. split; [done|]. by apply (matches_monotone _ k).
  - apply filter_Forall_sublist, Forall_forall. intros entry _.
    rewrite !outcome_NoMatch. simpl. intros [?|(value & Htag & Hv)]; [by left|].
    right. exists value. split; [done|]. by apply (mismatches_antitone _ k k').
Qed.

Lemma larger_distance_matches_more_witness :
  (0 ≤ 1)%Z ∧
  Forall (λ entry, same_length args_hamming entry = true) sample_hamming ∧
  out_1 (run (set_max_edit_dist 0 args_hamming) sample_hamming).2
    `sublist_of` out_1 (run (set_max_edit_dist 1 args_hamming) sample_hamming).2.
Proof.
  assert (Hk : (0 ≤ 1)%Z) by lia.
  assert (Hlen : Forall (λ entry, same_length args_hamming entry = true) sample_hamming)
    by (repeat constructor).
  split; [exact Hk|]. split; [exact Hlen|].
  exact (proj1 (proj2 (proj2 (larger_distance_matches_more args_hamming 0 1 sample_hamming
                                Hk Hlen)))).
Defined.

Lemma same_length_ok args entry :
  same_length args entry = true → violates args entry = false.
Proof.
  unfold same_length, violates.
  destruct (aux_get (aux entry) (tag_id args)) as [value|]; [|done].
  intros Hlen%bool_decide_eq_true.
  rewrite (bool_decide_eq_false_2 (_ ≠ _)) by (intros Hne; by apply Hne).
  apply andb_false_r.
Qed.

Lemma matches_not_mismatches args value : matches args value → ¬ mismatches args value.
Proof.
  unfold matches, mismatches. case_decide.
  - intros [_ Hle] [_ Hlt]. lia.
  - by intros -> Hne.
Qed.

Lemma length_zero_empty (s : string) : String.length s = 0 → s = "".
Proof. by destruct s. Qed.

Lemma matches_full_length args entry value :
  (Z.of_nat (String.length (tag_value args)) ≤ max_edit_dist args)%Z →
  same_length args entry = true →
  aux_get (aux entry) (tag_id args) = Some value →
  matches args value.
Proof.
  intros Hk Hsame Htag. unfold same_length in Hsame. rewrite Htag in Hsame.
  apply bool_decide_eq_true in Hsame. unfold matches. case_decide as H0.
  - split; [done|].
    pose proof (differing_positions_le (chars value) (chars (tag_value args))) as Hle.
    rewrite length_chars in Hle. lia.
  - rewrite (length_zero_empty value), (length_zero_empty (tag_value args)); [done|lia..].
Qed.

(** X13.  With [max_edit_dist] at least the length of [tag_value], over an
    input in which every tag value is as long as [tag_value], the run gets to
    its end, every entry that carries the tag is in the first output file,
    and the second holds the entries without the tag, or nothing when
    [discard_missing_tags] is set. *)
Theorem full_length_distance_matches_all args entries :
  (Z.of_nat (String.length (tag_value args)) ≤ max_edit_dist args)%Z →
  Forall (λ entry, same_length args entry = true) entries →
  (run args entries).1 = inr () ∧
  out_1 (run args entries).2 = filter (λ entry, has_tag entry (tag_id args) = true) entries ∧
  out_2 (run args entries).2
    = if discard_missing_tags args then []
      else filter (λ entry, has_tag entry (tag_id args) = false) entries.
Proof.
  intros Hk Hlen.
  assert (Hok : Forall (λ entry, violates args entry = false) entries).
  { eapply Forall_impl; [exact Hlen|]. apply same_length_ok. }
  rewrite run_complete by done. simpl. split; [done|]. split.
  - apply filter_Forall_iff. eapply Forall_impl; [exact Hlen|].
    intros entry Hsame. simpl. rewrite outcome_Match, has_tag_true. split.
    + intros (value & Htag & _). by exists value.
    + intros (value & Htag). exists value. split; [done|].
      by apply (matches_full_length args entry).
  - assert (Hno : Forall (λ entry, outcome args entry = Some NoMatch ↔
                     has_tag entry (tag_id args) = false ∧
                     discard_missing_tags args = false) entries).
    { eapply Forall_impl; [exact Hlen|]. intros entry Hsame. simpl.
      rewrite outcome_NoMatch, has_tag_false. split; [|by left].
      intros [?|(value & Htag & Hv)]; [done|].
      destruct (matches_not_mismatches args value); [|done].
      by apply (matches_full_length args entry). }
    unfold with_outcome. destruct (discard_missing_tags args).
    + apply filter_Forall_none. eapply Forall_impl; [exact Hno|].
      intros entry Hiff Ho. simpl in *. apply Hiff in Ho as [_ ?]. done.
    + apply filter_Forall_iff. eapply Forall_impl; [exact Hno|].
      intros entry Hiff. simpl in *. rewrite Hiff. split; [by intros [? _]|done].
Qed.

Lemma full_length_distance_matches_all_witness :
  (Z.of_nat (String.length (tag_value (set_max_edit_dist 2 args_hamming)))
   ≤ max_edit_dist (set_max_edit_dist 2 args_hamming))%Z ∧
  Forall (λ entry, same_length (set_max_edit_dist 2 args_hamming) entry = true)
    sample_hamming ∧
  out_1 (run (set_max_edit_dist 2 args_hamming) sample_hamming).2
    = [read "q1" [("XC", "AC")]; read "q2" [("XC", "GG")]; read "q4" [("XC", "AT")]].
Proof.
  assert (Hk : (Z.of_nat (String.length (tag_value (set_max_edit_dist 2 args_hamming)))
                ≤ max_edit_dist (set_max_edit_dist 2 args_hamming))%Z) by (simpl; lia).
  assert (Hlen : Forall (λ entry, same_length (set_max_edit_dist 2 args_hamming) entry = true)
                   sample_hamming) by (repeat constructor).
  split; [exact Hk|]. split; [exact Hlen|].
  exact (proj1 (proj2 (full_length_distance_matches_all
                         (set_max_edit_dist 2 args_hamming) sample_hamming Hk Hlen))).
Defined.
